(** * A shallow embedding of [src/decoder.rs] (the [Decoder] cursor of dhcproto)

    Bytes ([u8]) are [Z] values in [0, 256); offsets and lengths ([usize]) are
    [N] values on a 64-bit target, with [checked_add] written out.  Every
    method taking [&mut self] is a function [Decoder -> Decoder * res A]:
    the cursor after the call (also after an early [?] return) and the
    outcome, which is [Ok], [Err] or a panic (out-of-range slice indexing). *)

From Stdlib Require Import ZArith NArith List Lia Bool.
Import ListNotations.
Open Scope Z_scope.

(** ** Machine integers *)

Definition usize_bits : N := 64.
Definition usize_max : N := (2 ^ usize_bits - 1)%N.
(** Rust slices never hold more than [isize::MAX] bytes. *)
Definition isize_max : N := (2 ^ (usize_bits - 1) - 1)%N.

(** [usize::checked_add]. *)
Definition checked_add (a b : N) : option N :=
  if (a + b <=? usize_max)%N then Some (a + b)%N else None.

(** ** Errors *)

(** Modelled from the spec: [crate::error::DecodeError] (error.rs is not in
    the sources).  One constructor per error the decoder raises or converts
    with [?]: [AddOverflow], [EndOfBuffer { index }], [NotEnoughBytes], and
    the [From] conversions of [TryFromSliceError], [FromBytesWithNulError]
    and [Utf8Error]. *)
Inductive DecodeError :=
| AddOverflow
| EndOfBuffer (index : N)
| NotEnoughBytes
| SliceError
| NulError
| Utf8Error.

(** Outcome of a call: [Ok], [Err] (a [DecodeResult]) or a panic. *)
Inductive res (A : Type) :=
| Ok (a : A)
| Err (e : DecodeError)
| Panic.
Arguments Ok {A} a.
Arguments Err {A} e.
Arguments Panic {A}.

(** ** The cursor *)

Record Decoder := mkDecoder {
  buffer : list Z;
  index : N
}.

Definition new (buf : list Z) : Decoder := {| buffer := buf; index := 0%N |}.

Definition set_index (d : Decoder) (i : N) : Decoder :=
  {| buffer := buffer d; index := i |}.

(** A small state-and-error monad over the cursor, for [?]-chains. *)
Definition M (A : Type) := Decoder -> Decoder * res A.

Definition ret {A} (a : A) : M A := fun d => (d, Ok a).
Definition fail {A} (e : DecodeError) : M A := fun d => (d, Err e).
Definition bind {A B} (m : M A) (k : A -> M B) : M B :=
  fun d => match m d with
           | (d', Ok a) => k a d'
           | (d', Err e) => (d', Err e)
           | (d', Panic) => (d', Panic)
           end.
Notation "x <- m ;; k" := (bind m (fun x => k))
  (at level 61, m at next level, right associativity).

(** [Option::ok_or(e)?] and [Result<_, E>?] for pure values. *)
Definition lift_opt {A} (o : option A) (e : DecodeError) : M A :=
  match o with Some a => ret a | None => fail e end.

(** [<[u8]>::get(start..end)]: [None] when [start > end] or [end > len]. *)
Definition slice_get (buf : list Z) (start end_ : N) : option (list Z) :=
  if ((start <=? end_)%N && (end_ <=? N.of_nat (length buf))%N)%bool
  then Some (firstn (N.to_nat (end_ - start)) (skipn (N.to_nat start) buf))
  else None.

(** [<[u8; N]>::try_from(&[u8])]: succeeds when the slice has length [N]. *)
Definition try_into_array (n : N) (s : list Z) : option (list Z) :=
  if (N.of_nat (length s) =? n)%N then Some s else None.

(** [Decoder::read::<N>] *)
Definition read (n : N) : M (list Z) :=
  fun d =>
    (end_ <- lift_opt (checked_add (index d) n) AddOverflow ;;
     s <- lift_opt (slice_get (buffer d) (index d) end_) (EndOfBuffer end_) ;;
     bytes <- lift_opt (try_into_array n s) SliceError ;;
     fun d' => (set_index d' end_, Ok bytes)) d.

(** [Decoder::read_slice] *)
Definition read_slice (len : N) : M (list Z) :=
  fun d =>
    (end_ <- lift_opt (checked_add (index d) len) AddOverflow ;;
     slice <- lift_opt (slice_get (buffer d) (index d) end_) (EndOfBuffer end_) ;;
     fun d' => (set_index d' end_, Ok slice)) d.

(** [uN::from_be_bytes] *)
Definition from_be_bytes (bytes : list Z) : Z :=
  fold_left (fun acc b => acc * 256 + b) bytes 0.

(** [i32::from_be_bytes]: the unsigned value read as two's complement. *)
Definition i32_from_be_bytes (bytes : list Z) : Z :=
  let u := from_be_bytes bytes in
  if u <? 2 ^ 31 then u else u - 2 ^ 32.

Definition read_u8 : M Z := b <- read 1 ;; ret (from_be_bytes b).
Definition read_u32 : M Z := b <- read 4 ;; ret (from_be_bytes b).
Definition read_i32 : M Z := b <- read 4 ;; ret (i32_from_be_bytes b).
Definition read_u16 : M Z := b <- read 2 ;; ret (from_be_bytes b).
Definition read_u64 : M Z := b <- read 8 ;; ret (from_be_bytes b).

(** ** Text *)

(** [str::from_utf8]: the validity check of Rust's [core::str] (Unicode
    Table 3-7: no overlong forms, no surrogates, nothing above U+10FFFF). *)
Definition cont (b : Z) : bool := (128 <=? b) && (b <=? 191).
Definition in_range (lo hi b : Z) : bool := (lo <=? b) && (b <=? hi).

Fixpoint utf8_valid (s : list Z) : bool :=
  match s with
  | [] => true
  | b :: t =>
    if b <? 128 then utf8_valid t else
    match t with
    | [] => false
    | c1 :: t1 =>
      if in_range 194 223 b then cont c1 && utf8_valid t1 else
      match t1 with
      | [] => false
      | c2 :: t2 =>
        if b =? 224 then in_range 160 191 c1 && cont c2 && utf8_valid t2
        else if in_range 225 236 b || in_range 238 239 b
        then cont c1 && cont c2 && utf8_valid t2
        else if b =? 237 then in_range 128 159 c1 && cont c2 && utf8_valid t2
        else
        match t2 with
        | [] => false
        | c3 :: t3 =>
          if b =? 240 then in_range 144 191 c1 && cont c2 && cont c3 && utf8_valid t3
          else if in_range 241 243 b then cont c1 && cont c2 && cont c3 && utf8_valid t3
          else if b =? 244 then in_range 128 143 c1 && cont c2 && cont c3 && utf8_valid t3
          else false
        end
      end
    end
  end.

(** A Rust [String] (and a [&str]) is held as its UTF-8 bytes. *)
Definition from_utf8 (s : list Z) : option (list Z) :=
  if utf8_valid s then Some s else None.

(** [Iterator::position(|&b| b == 0)] *)
Fixpoint position_nul (bytes : list Z) : option nat :=
  match bytes with
  | [] => None
  | b :: t => if b =? 0 then Some 0%nat
              else match position_nul t with
                   | Some n => Some (S n)
                   | None => None
                   end
  end.

(** [CStr::from_bytes_with_nul]: exactly one nul byte, the last one.  A
    [CString] is held as its bytes with the terminating nul. *)
Definition cstr_from_bytes_with_nul (s : list Z) : option (list Z) :=
  match position_nul s with
  | Some n => if Nat.eqb (S n) (length s) then Some s else None
  | None => None
  end.

(** [Decoder::read_cstring::<MAX>] *)
Definition read_cstring (max : N) : M (option (list Z)) :=
  bytes <- read max ;;
  match position_nul bytes with
  | Some n => if Nat.eqb n 0 then ret None
              else c <- lift_opt (cstr_from_bytes_with_nul (firstn (S n) bytes)) NulError ;;
                   ret (Some c)
  | None => ret None
  end.

(** [Decoder::read_const_string::<MAX>] *)
Definition read_const_string (max : N) : M (option (list Z)) :=
  bytes <- read max ;;
  match position_nul bytes with
  | Some n => if Nat.eqb n 0 then ret None
              else s <- lift_opt (from_utf8 (firstn (S n) bytes)) Utf8Error ;;
                   ret (Some s)
  | None => ret None
  end.

(** [Decoder::read_string] *)
Definition read_string (len : N) : M (list Z) :=
  slice <- read_slice len ;;
  s <- lift_opt (from_utf8 slice) Utf8Error ;;
  ret s.

(** ** Addresses *)

(** [Ipv4Addr::from([u8; 4])] and [Ipv6Addr::from([u8; 16])]. *)
Record Ipv4Addr := mkIpv4 { ip4_octets : Z * Z * Z * Z }.
Record Ipv6Addr := mkIpv6 { ip6_octets : list Z }.

(** [<[u8]>::chunks(n)]: consecutive chunks of [n] bytes, the last one
    possibly shorter. *)
Fixpoint chunks_aux (fuel : nat) (n : nat) (s : list Z) : list (list Z) :=
  match fuel with
  | O => []
  | S fuel' =>
    match s with
    | [] => []
    | _ :: _ => firstn n s :: chunks_aux fuel' n (skipn n s)
    end
  end.
Definition chunks (n : nat) (s : list Z) : list (list Z) := chunks_aux (length s) n s.

(** [bytes[i]]: [None] is the out-of-bounds panic. *)
Definition idx (s : list Z) (i : nat) : option Z := nth_error s i.

(** Collecting a mapped iterator whose items may fail or panic: the first
    [None] stops the collection. *)
Fixpoint collect {A} (xs : list (option A)) : option (list A) :=
  match xs with
  | [] => Some []
  | Some x :: t => match collect t with Some l => Some (x :: l) | None => None end
  | None :: _ => None
  end.

Definition ipv4_of_chunk (bytes : list Z) : option Ipv4Addr :=
  match idx bytes 0, idx bytes 1, idx bytes 2, idx bytes 3 with
  | Some a, Some b, Some c, Some e => Some (mkIpv4 (a, b, c, e))
  | _, _, _, _ => None
  end.

Definition ipv6_of_chunk (bytes : list Z) : option Ipv6Addr :=
  match try_into_array 16 bytes with
  | Some arr => Some (mkIpv6 arr)
  | None => None
  end.

Definition pair_of_chunk (bytes : list Z) : option (Ipv4Addr * Ipv4Addr) :=
  match idx bytes 0, idx bytes 1, idx bytes 2, idx bytes 3,
        idx bytes 4, idx bytes 5, idx bytes 6, idx bytes 7 with
  | Some a, Some b, Some c, Some e, Some f, Some g, Some h, Some i =>
    Some (mkIpv4 (a, b, c, e), mkIpv4 (f, g, h, i))
  | _, _, _, _, _, _, _, _ => None
  end.

(** A panic inside the closure. *)
Definition panic_on_none {A} (o : option A) : M A :=
  fun d => match o with Some a => (d, Ok a) | None => (d, Panic) end.

(** [Decoder::read_ipv4] *)
Definition read_ipv4 (length : N) : M Ipv4Addr :=
  if negb (length =? 4)%N then fail NotEnoughBytes else
  bytes <- read 4 ;;
  panic_on_none (ipv4_of_chunk bytes).

(** [Decoder::read_ipv4s] *)
Definition read_ipv4s (length : N) : M (list Ipv4Addr) :=
  if negb (length mod 4 =? 0)%N then fail NotEnoughBytes else
  ips <- read_slice length ;;
  panic_on_none (collect (map ipv4_of_chunk (chunks 4 ips))).

(** [Decoder::read_ipv6s]: the [try_into] error is collected into a
    [Result] and converted by [?]. *)
Definition read_ipv6s (length : N) : M (list Ipv6Addr) :=
  if negb (length mod 16 =? 0)%N then fail NotEnoughBytes else
  ips <- read_slice length ;;
  lift_opt (collect (map ipv6_of_chunk (chunks 16 ips))) SliceError.

(** [Decoder::read_pair_ipv4s] *)
Definition read_pair_ipv4s (length : N) : M (list (Ipv4Addr * Ipv4Addr)) :=
  if negb (length mod 8 =? 0)%N then fail NotEnoughBytes else
  ips <- read_slice length ;;
  panic_on_none (collect (map pair_of_chunk (chunks 8 ips))).

(** [Decoder::read_bool] *)
Definition read_bool : M bool := b <- read_u8 ;; ret (b =? 1).

(** [Decoder::buffer]: [&self.buffer[self.index..]], which panics when the
    index is past the end; [None] is that panic. *)
Definition remaining (d : Decoder) : option (list Z) :=
  if (index d <=? N.of_nat (length (buffer d)))%N
  then Some (skipn (N.to_nat (index d)) (buffer d)) else None.

(** ** Every operation of the cursor *)

Inductive Op :=
| OpRead (n : N)
| OpReadU8 | OpReadU16 | OpReadU32 | OpReadU64 | OpReadI32 | OpReadBool
| OpReadSlice (len : N)
| OpReadString (len : N)
| OpReadCString (max : N)
| OpReadConstString (max : N)
| OpReadIpv4 (length : N)
| OpReadIpv4s (length : N)
| OpReadIpv6s (length : N)
| OpReadPairIpv4s (length : N)
| OpBuffer.

Definition forget {A} (r : res A) : res unit :=
  match r with Ok _ => Ok tt | Err e => Err e | Panic => Panic end.

Definition run_op (op : Op) (d : Decoder) : Decoder * res unit :=
  let go {A} (m : M A) := let (d', r) := m d in (d', forget r) in
  match op with
  | OpRead n => go (read n)
  | OpReadU8 => go read_u8
  | OpReadU16 => go read_u16
  | OpReadU32 => go read_u32
  | OpReadU64 => go read_u64
  | OpReadI32 => go read_i32
  | OpReadBool => go read_bool
  | OpReadSlice len => go (read_slice len)
  | OpReadString len => go (read_string len)
  | OpReadCString max => go (read_cstring max)
  | OpReadConstString max => go (read_const_string max)
  | OpReadIpv4 length => go (read_ipv4 length)
  | OpReadIpv4s length => go (read_ipv4s length)
  | OpReadIpv6s length => go (read_ipv6s length)
  | OpReadPairIpv4s length => go (read_pair_ipv4s length)
  | OpBuffer => match remaining d with Some _ => (d, Ok tt) | None => (d, Panic) end
  end.

(** The number of bytes each operation consumes when it succeeds. *)
Definition consumed (op : Op) : N :=
  match op with
  | OpRead n => n
  | OpReadU8 | OpReadBool => 1
  | OpReadU16 => 2
  | OpReadU32 | OpReadI32 => 4
  | OpReadU64 => 8
  | OpReadSlice len | OpReadString len => len
  | OpReadCString max | OpReadConstString max => max
  | OpReadIpv4 _ => 4
  | OpReadIpv4s len | OpReadIpv6s len | OpReadPairIpv4s len => len
  | OpBuffer => 0
  end.

(** The cursor invariant: the index is within the buffer, and the buffer is
    a Rust slice (at most [isize::MAX] bytes). *)
Definition wf (d : Decoder) : Prop :=
  (index d <= N.of_nat (length (buffer d)) <= isize_max)%N.

Definition len (d : Decoder) : N := N.of_nat (length (buffer d)).

(** Sanity checks of the embedding. *)
Example read_u32_42 : read_u32 (new [0; 0; 0; 42]) = (set_index (new [0; 0; 0; 42]) 4, Ok 42).
Proof. reflexivity. Qed.
Example read_ipv4_loopback :
  snd (read_ipv4 4 (new [127; 0; 0; 1])) = Ok (mkIpv4 (127, 0, 0, 1)).
Proof. reflexivity. Qed.
Example read_i32_min : snd (read_i32 (new [128; 0; 0; 0])) = Ok (-2147483648).
Proof. reflexivity. Qed.
Example read_const_string_ab :
  snd (read_const_string 5 (new [97; 98; 0; 99; 100])) = Ok (Some [97; 98; 0]).
Proof. reflexivity. Qed.
Example utf8_rejects_overlong : utf8_valid [192; 128] = false.
Proof. reflexivity. Qed.
Example utf8_accepts_euro : utf8_valid [226; 130; 172] = true.
Proof. reflexivity. Qed.

(** * Properties *)

(** ** Slicing and the two primitive reads *)

Lemma length_slice (buf : list Z) (i n : N) :
  (i + n <= N.of_nat (length buf))%N ->
  length (firstn (N.to_nat n) (skipn (N.to_nat i) buf)) = N.to_nat n.
Proof.
  intros H. rewrite length_firstn, length_skipn. lia.
Qed.

Lemma slice_get_in (buf : list Z) (i n : N) :
  (i + n <= N.of_nat (length buf))%N ->
  slice_get buf i (i + n) = Some (firstn (N.to_nat n) (skipn (N.to_nat i) buf)).
Proof.
  intros H. unfold slice_get.
  replace ((i <=? i + n)%N) with true by (symmetry; apply N.leb_le; lia).
  replace ((i + n <=? N.of_nat (length buf))%N) with true by (symmetry; apply N.leb_le; lia).
  simpl. do 3 f_equal. lia.
Qed.

Lemma slice_get_out (buf : list Z) (i n : N) :
  (N.of_nat (length buf) < i + n)%N -> slice_get buf i (i + n) = None.
Proof.
  intros H. unfold slice_get.
  replace ((i + n <=? N.of_nat (length buf))%N) with false by (symmetry; apply N.leb_gt; lia).
  now rewrite andb_false_r.
Qed.

Lemma checked_add_some (a b : N) :
  (a + b <= usize_max)%N -> checked_add a b = Some (a + b)%N.
Proof. intros H. unfold checked_add. now rewrite (proj2 (N.leb_le _ _) H). Qed.

Lemma checked_add_none (a b : N) :
  (usize_max < a + b)%N -> checked_add a b = None.
Proof. intros H. unfold checked_add. now rewrite (proj2 (N.leb_gt _ _) H). Qed.

(** The unread bytes [buffer[index .. index + n]]. *)
Definition window (d : Decoder) (n : N) : list Z :=
  firstn (N.to_nat n) (skipn (N.to_nat (index d)) (buffer d)).

(** Both reads, case by case. *)
Lemma read_slice_cases (d : Decoder) (n : N) :
  read_slice n d =
  if (usize_max <? index d + n)%N then (d, Err AddOverflow)
  else if (len d <? index d + n)%N then (d, Err (EndOfBuffer (index d + n)))
  else (set_index d (index d + n), Ok (window d n)).
Proof.
  unfold read_slice, bind, lift_opt, ret, fail, len, window.
  destruct (N.ltb_spec usize_max (index d + n)) as [Ho|Ho].
  - now rewrite checked_add_none.
  - rewrite checked_add_some by exact Ho.
    destruct (N.ltb_spec (N.of_nat (length (buffer d))) (index d + n)) as [He|He].
    + now rewrite slice_get_out.
    + now rewrite slice_get_in.
Qed.

Lemma read_cases (d : Decoder) (n : N) :
  read n d =
  if (usize_max <? index d + n)%N then (d, Err AddOverflow)
  else if (len d <? index d + n)%N then (d, Err (EndOfBuffer (index d + n)))
  else (set_index d (index d + n), Ok (window d n)).
Proof.
  unfold read, bind, lift_opt, ret, fail, len, window.
  destruct (N.ltb_spec usize_max (index d + n)) as [Ho|Ho].
  - now rewrite checked_add_none.
  - rewrite checked_add_some by exact Ho.
    destruct (N.ltb_spec (N.of_nat (length (buffer d))) (index d + n)) as [He|He].
    + now rewrite slice_get_out.
    + rewrite slice_get_in by exact He. unfold try_into_array.
      rewrite length_slice by exact He. now rewrite N2Nat.id, N.eqb_refl.
Qed.

(** ** C1 *)

(** C1: [read::<N>] computes [end = index + N]; it fails with [AddOverflow]
    when the addition overflows [usize], with [EndOfBuffer { index: end }]
    when [end] is past the buffer, and otherwise returns the [N] bytes
    [buffer[index..end]] and sets the index to [end]; a failure leaves the
    cursor as it was. *)
Theorem read_spec (d : Decoder) (n : N) :
  ((usize_max < index d + n)%N -> read n d = (d, Err AddOverflow)) /\
  ((index d + n <= usize_max)%N -> (len d < index d + n)%N ->
     read n d = (d, Err (EndOfBuffer (index d + n)))) /\
  ((index d + n <= usize_max)%N -> (index d + n <= len d)%N ->
     exists bytes, read n d = (set_index d (index d + n), Ok bytes) /\
       bytes = firstn (N.to_nat n) (skipn (N.to_nat (index d)) (buffer d)) /\
       N.of_nat (length bytes) = n).
Proof.
  rewrite read_cases. repeat split; intros.
  - now rewrite (proj2 (N.ltb_lt _ _) H).
  - rewrite (proj2 (N.ltb_ge _ _) H). now rewrite (proj2 (N.ltb_lt _ _) H0).
  - rewrite (proj2 (N.ltb_ge _ _) H), (proj2 (N.ltb_ge _ _) H0).
    exists (window d n). repeat split.
    unfold window, len in *. rewrite length_slice by exact H0. lia.
Qed.

Lemma read_spec_witness :
  (exists bytes, read 2 (new [7; 8; 9]) = (set_index (new [7; 8; 9]) 2, Ok bytes) /\
     bytes = [7; 8] /\ N.of_nat (length bytes) = 2%N).
Proof.
  destruct (proj2 (proj2 (read_spec (new [7; 8; 9]) 2))) as [b [H1 [H2 H3]]];
    [vm_compute; discriminate | vm_compute; discriminate |].
  exists b. simpl in H2. repeat split; assumption.
Defined.

(** ** C2 *)

(** The state reached by [new([5])] then [read_u8()]: index 1 of 1. *)
Definition after_one_byte : Decoder := fst (read_u8 (new [5])).

(** C2 (as stated: every read past the end fails with [EndOfBuffer]) is
    false: [read_slice(usize::MAX)] at index 1 of a 1-byte buffer reads past
    the end, and fails with [AddOverflow]. *)
Lemma read_past_end_overflow_counterexample :
  (len after_one_byte < index after_one_byte + usize_max)%N /\
  read_slice usize_max after_one_byte = (after_one_byte, Err AddOverflow) /\
  ~ (forall (d : Decoder) (n : N), (len d < index d + n)%N ->
       snd (read_slice n d) = Err (EndOfBuffer (index d + n))).
Proof.
  assert (E : read_slice usize_max after_one_byte = (after_one_byte, Err AddOverflow))
    by (vm_compute; reflexivity).
  split; [vm_compute; reflexivity | split; [exact E |]].
  intros H. specialize (H after_one_byte usize_max).
  rewrite E in H. simpl in H. discriminate H. vm_compute. reflexivity.
Qed.

(** C2 (amended): a read of [n] bytes, fixed ([read::<n>]) or at run time
    ([read_slice(n)]), with [index + n] past the end of the buffer fails
    with [EndOfBuffer { index: index + n }] when [index + n] fits in a
    [usize] and with [AddOverflow] otherwise; either way the cursor is left
    unchanged. *)
Theorem read_past_end_no_consumption (d : Decoder) (n : N) :
  (len d < index d + n)%N ->
  let e := if (usize_max <? index d + n)%N then AddOverflow
           else EndOfBuffer (index d + n) in
  read n d = (d, Err e) /\ read_slice n d = (d, Err e).
Proof.
  intros H e. subst e. rewrite read_cases, read_slice_cases.
  destruct (usize_max <? index d + n)%N; [split; reflexivity |].
  now rewrite (proj2 (N.ltb_lt _ _) H).
Qed.

Lemma read_past_end_no_consumption_witness :
  let d := new [1; 2] in
  (len d < index d + 3)%N /\
  read 3 d = (d, Err (EndOfBuffer 3)) /\ read_slice 3 d = (d, Err (EndOfBuffer 3)).
Proof.
  intros d.
  assert (H : (len d < index d + 3)%N) by (vm_compute; reflexivity).
  split; [exact H |].
  exact (read_past_end_no_consumption d 3 H).
Defined.

(** ** C3: the cursor invariant *)

(** [m] either leaves the cursor alone and does not succeed, or moves the
    index exactly [n] bytes forward, within the buffer. *)
Definition steps {A} (n : N) (m : M A) : Prop :=
  forall d, let (d', r) := m d in
    (d' = d /\ forall a, r <> Ok a) \/
    (d' = set_index d (index d + n) /\ (index d + n <= len d)%N).

(** [k] never touches the cursor. *)
Definition stays {A} (k : M A) : Prop := forall d, fst (k d) = d.

Lemma set_index_same (d : Decoder) : set_index d (index d) = d.
Proof. now destruct d. Qed.

Lemma set_index_twice (d : Decoder) (i j : N) : set_index (set_index d i) j = set_index d j.
Proof. reflexivity. Qed.

Lemma stays_ret {A} (a : A) : stays (ret a).
Proof. now intro. Qed.
Lemma stays_fail {A} (e : DecodeError) : stays (@fail A e).
Proof. now intro. Qed.
Lemma stays_lift_opt {A} (o : option A) e : stays (lift_opt o e).
Proof. destruct o; intro; reflexivity. Qed.
Lemma stays_panic_on_none {A} (o : option A) : stays (panic_on_none o).
Proof. destruct o; intro; reflexivity. Qed.
Lemma stays_bind {A B} (m : M A) (k : A -> M B) :
  stays m -> (forall a, stays (k a)) -> stays (bind m k).
Proof.
  intros Hm Hk d. unfold bind. specialize (Hm d).
  destruct (m d) as [d' [a| |]]; simpl in *; subst; [apply Hk | reflexivity | reflexivity].
Qed.

Create HintDb cursor.
#[local] Hint Resolve stays_ret stays_fail stays_lift_opt stays_panic_on_none stays_bind : cursor.

Lemma steps_read_slice (n : N) : steps n (read_slice n).
Proof.
  intros d. rewrite read_slice_cases.
  destruct (N.ltb_spec usize_max (index d + n)).
  - left. split; [reflexivity | discriminate].
  - destruct (N.ltb_spec (len d) (index d + n)).
    + left. split; [reflexivity | discriminate].
    + right. split; [reflexivity | assumption].
Qed.

Lemma steps_read (n : N) : steps n (read n).
Proof.
  intros d. rewrite read_cases.
  destruct (N.ltb_spec usize_max (index d + n)).
  - left. split; [reflexivity | discriminate].
  - destruct (N.ltb_spec (len d) (index d + n)).
    + left. split; [reflexivity | discriminate].
    + right. split; [reflexivity | assumption].
Qed.

Lemma steps_bind {A B} (n : N) (m : M A) (k : A -> M B) :
  steps n m -> (forall a, stays (k a)) -> steps n (bind m k).
Proof.
  intros Hm Hk d. unfold bind. specialize (Hm d).
  destruct (m d) as [d' r] eqn:E.
  destruct r as [a|e|].
  - destruct Hm as [[_ Hr]|Hr]; [exfalso; exact (Hr a eq_refl) |].
    specialize (Hk a d'). destruct (k a d') as [d'' r''].
    simpl in Hk. subst. right. exact Hr.
  - destruct Hm as [[-> _]|Hr]; [left; split; [reflexivity | discriminate] | right; exact Hr].
  - destruct Hm as [[-> _]|Hr]; [left; split; [reflexivity | discriminate] | right; exact Hr].
Qed.

Lemma steps_guard {A} (n : N) (b : bool) (e : DecodeError) (m : M A) :
  steps n m -> steps n (if b then fail e else m).
Proof.
  intros Hm d. destruct b; [| apply Hm].
  left. split; [reflexivity | discriminate].
Qed.

#[local] Hint Resolve steps_read steps_read_slice steps_bind steps_guard : cursor.

Lemma steps_forget {A} (n : N) (m : M A) :
  steps n m -> steps n (fun d => let (d', r) := m d in (d', forget r)).
Proof.
  intros Hm d. specialize (Hm d). destruct (m d) as [d' r].
  destruct Hm as [[-> Hr]|Hr]; [left | right; exact Hr].
  split; [reflexivity |]. destruct r; simpl; try discriminate.
  intros _ _. exact (Hr a eq_refl).
Qed.

Lemma steps_run_op (op : Op) (d : Decoder) :
  wf d ->
  let (d', r) := run_op op d in
    (d' = d /\ forall a, r <> Ok a) \/
    (d' = set_index d (index d + consumed op) /\ (index d + consumed op <= len d)%N).
Proof.
  intros Hwf. destruct op.
  16: { simpl. unfold remaining. destruct Hwf as [H1 H2].
        rewrite (proj2 (N.leb_le _ _) H1). right.
        rewrite N.add_0_r, set_index_same. split; [reflexivity | exact H1]. }
  all: simpl; apply (steps_forget _ _);
    unfold read_u8, read_u16, read_u32, read_u64, read_i32, read_bool, read_string,
      read_cstring, read_const_string, read_ipv4, read_ipv4s, read_ipv6s, read_pair_ipv4s;
    repeat (apply steps_guard || apply steps_bind || apply steps_read
            || apply steps_read_slice); try intros a;
    repeat (match goal with |- context [match ?x with _ => _ end] => destruct x end);
    auto 8 with cursor.
Qed.

(** C3: [Decoder::new] starts at index 0 within its buffer, and every
    operation of the cursor, successful or not, keeps [0 <= index <= len]
    and the buffer, never moves the index backwards, and on success moves
    it exactly past the bytes the operation consumes. *)
Theorem cursor_invariant :
  (forall buf : list Z, (N.of_nat (length buf) <= isize_max)%N ->
     wf (new buf) /\ index (new buf) = 0%N) /\
  (forall (op : Op) (d : Decoder), wf d ->
     let (d', r) := run_op op d in
     buffer d' = buffer d /\ wf d' /\ (index d <= index d')%N /\
     (r = Ok tt -> index d' = (index d + consumed op)%N)).
Proof.
  split.
  - intros buf H. unfold wf. simpl. split; [lia | reflexivity].
  - intros op d Hwf. pose proof (steps_run_op op d Hwf) as Hs.
    destruct (run_op op d) as [d' r].
    destruct Hs as [[-> Hr]|[-> Hle]].
    + split; [reflexivity | split; [exact Hwf | split; [lia |]]].
      intros ->. exfalso. exact (Hr tt eq_refl).
    + unfold wf, len in *. simpl.
      split; [reflexivity | split; [lia | split; [lia | reflexivity]]].
Qed.

Lemma cursor_invariant_witness :
  wf (new [1; 2; 3]) /\
  let (d', r) := run_op (OpReadSlice 2) (new [1; 2; 3]) in
  buffer d' = [1; 2; 3] /\ wf d' /\ (0 <= index d')%N /\ (r = Ok tt -> index d' = 2%N).
Proof.
  assert (H : wf (new [1; 2; 3])) by (vm_compute; split; discriminate).
  split; [exact H |].
  pose proof (proj2 cursor_invariant (OpReadSlice 2) (new [1; 2; 3]) H) as P.
  exact P.
Defined.

(** ** C4: big-endian round trip *)

(** [to_be_bytes]: the [w]-byte big-endian (network order) encoding of [v],
    two's complement for negative [v]. *)
Fixpoint to_be_bytes (w : nat) (v : Z) : list Z :=
  match w with
  | O => []
  | S w' => to_be_bytes w' (v / 256) ++ [v mod 256]
  end.

Lemma to_be_bytes_length (w : nat) (v : Z) : length (to_be_bytes w v) = w.
Proof.
  revert v. induction w as [|w IH]; intros v; simpl; [reflexivity |].
  rewrite length_app, IH. simpl. lia.
Qed.

Lemma from_be_bytes_snoc (l : list Z) (b : Z) :
  from_be_bytes (l ++ [b]) = from_be_bytes l * 256 + b.
Proof. unfold from_be_bytes. now rewrite fold_left_app. Qed.

Lemma from_to_be_bytes (w : nat) (v : Z) :
  from_be_bytes (to_be_bytes w v) = v mod 2 ^ (8 * Z.of_nat w).
Proof.
  revert v. induction w as [|w IH]; intros v.
  - simpl. now rewrite Z.mod_1_r.
  - simpl to_be_bytes. rewrite from_be_bytes_snoc, IH.
    replace (8 * Z.of_nat (S w)) with (8 + 8 * Z.of_nat w) by lia.
    rewrite Z.pow_add_r by lia.
    rewrite Z.rem_mul_r by (try apply Z.pow_pos_nonneg; lia).
    change (2 ^ 8) with 256. lia.
Qed.

(** Reading [w] bytes from a fresh cursor over exactly [w] bytes. *)
Lemma read_all_fresh (l : list Z) :
  (N.of_nat (length l) <= usize_max)%N ->
  read (N.of_nat (length l)) (new l) = (set_index (new l) (N.of_nat (length l)), Ok l).
Proof.
  intros H. rewrite read_cases. unfold len, window. simpl.
  rewrite (proj2 (N.ltb_ge _ _) H).
  rewrite (proj2 (N.ltb_ge _ _) (N.le_refl _)).
  rewrite Nat2N.id, firstn_all. reflexivity.
Qed.

Lemma read_to_be_bytes (w : nat) (v : Z) :
  (N.of_nat w <= usize_max)%N ->
  read (N.of_nat w) (new (to_be_bytes w v)) =
  (set_index (new (to_be_bytes w v)) (N.of_nat w), Ok (to_be_bytes w v)).
Proof.
  intros H. pose proof (read_all_fresh (to_be_bytes w v)) as R.
  rewrite to_be_bytes_length in R. exact (R H).
Qed.

Lemma usize_small (w : nat) : (w <= 8)%nat -> (N.of_nat w <= usize_max)%N.
Proof. intros H. unfold usize_max, usize_bits. simpl. lia. Qed.

(** C4: decoding the big-endian encoding of a [u8], [u16], [u32], [u64] or
    [i32] value with the matching read from a fresh cursor returns it. *)
Theorem be_roundtrip :
  (forall v, 0 <= v < 2 ^ 8 -> snd (read_u8 (new (to_be_bytes 1 v))) = Ok v) /\
  (forall v, 0 <= v < 2 ^ 16 -> snd (read_u16 (new (to_be_bytes 2 v))) = Ok v) /\
  (forall v, 0 <= v < 2 ^ 32 -> snd (read_u32 (new (to_be_bytes 4 v))) = Ok v) /\
  (forall v, 0 <= v < 2 ^ 64 -> snd (read_u64 (new (to_be_bytes 8 v))) = Ok v) /\
  (forall v, - 2 ^ 31 <= v < 2 ^ 31 -> snd (read_i32 (new (to_be_bytes 4 v))) = Ok v).
Proof.
  unfold read_u8, read_u16, read_u32, read_u64, read_i32, bind, ret.
  repeat split; intros v Hv;
    [ pose proof (read_to_be_bytes 1 v (usize_small 1 ltac:(lia))) as R
    | pose proof (read_to_be_bytes 2 v (usize_small 2 ltac:(lia))) as R
    | pose proof (read_to_be_bytes 4 v (usize_small 4 ltac:(lia))) as R
    | pose proof (read_to_be_bytes 8 v (usize_small 8 ltac:(lia))) as R
    | pose proof (read_to_be_bytes 4 v (usize_small 4 ltac:(lia))) as R ];
    simpl N.of_nat in R; rewrite R; cbv beta iota zeta delta [snd ret];
    try unfold i32_from_be_bytes; rewrite from_to_be_bytes; simpl (8 * Z.of_nat _).
  1-4: f_equal; apply Z.mod_small; exact Hv.
  f_equal.
  destruct (Z_le_gt_dec 0 v) as [Hp|Hn].
  - rewrite Z.mod_small by lia. rewrite (proj2 (Z.ltb_lt _ _)) by lia. reflexivity.
  - replace (v mod 2 ^ 32) with (v + 2 ^ 32).
    + rewrite (proj2 (Z.ltb_ge _ _)) by lia. lia.
    + symmetry. rewrite <- (Z.mod_small (v + 2 ^ 32) (2 ^ 32)) by lia.
      rewrite <- Z.add_mod_idemp_r by lia. rewrite Z.mod_same by lia.
      now rewrite Z.add_0_r.
Qed.

Lemma be_roundtrip_witness :
  snd (read_u8 (new (to_be_bytes 1 255))) = Ok 255 /\
  snd (read_u16 (new (to_be_bytes 2 65535))) = Ok 65535 /\
  snd (read_u32 (new (to_be_bytes 4 0))) = Ok 0 /\
  snd (read_u64 (new (to_be_bytes 8 (2 ^ 64 - 1)))) = Ok (2 ^ 64 - 1) /\
  snd (read_i32 (new (to_be_bytes 4 (- 2 ^ 31)))) = Ok (- 2 ^ 31).
Proof.
  destruct be_roundtrip as [H8 [H16 [H32 [H64 Hi]]]].
  split; [apply H8; lia |]. split; [apply H16; lia |]. split; [apply H32; lia |].
  split; [apply H64; lia | apply Hi; lia].
Defined.

(** ** Chunking *)

Lemma chunks_aux_exact (n : nat) : (0 < n)%nat ->
  forall fuel (l : list Z) k, List.length l = (n * k)%nat -> (List.length l <= fuel)%nat ->
  Forall (fun c => List.length c = n) (chunks_aux fuel n l) /\
  concat (chunks_aux fuel n l) = l.
Proof.
  intros Hn fuel. induction fuel as [|fuel IH]; intros l k Hl Hf.
  - destruct l; [split; [constructor | reflexivity] | simpl in Hf; lia].
  - destruct l as [|x l']; [split; [constructor | reflexivity] |].
    cbn [chunks_aux].
    destruct k as [|k]; [simpl in Hl; lia |].
    assert (Hs : List.length (skipn n (x :: l')) = (n * k)%nat)
      by (rewrite length_skipn, Hl; lia).
    destruct (IH (skipn n (x :: l')) k Hs) as [IHf IHc].
    + rewrite Hs. simpl in Hf, Hl. nia.
    + split.
      * constructor; [rewrite length_firstn, Hl; lia | exact IHf].
      * simpl concat. rewrite IHc. apply firstn_skipn.
Qed.

Lemma chunks_exact (n k : nat) (l : list Z) :
  (0 < n)%nat -> List.length l = (n * k)%nat ->
  Forall (fun c => List.length c = n) (chunks n l) /\ concat (chunks n l) = l.
Proof. intros Hn Hl. exact (chunks_aux_exact n Hn _ l k Hl (le_n _)). Qed.

(** [Ipv4Addr::octets] *)
Definition ip4_bytes (a : Ipv4Addr) : list Z :=
  let '(b0, b1, b2, b3) := ip4_octets a in [b0; b1; b2; b3].

Lemma collect_ipv4 (cs : list (list Z)) :
  Forall (fun c => List.length c = 4%nat) cs ->
  exists addrs, collect (map ipv4_of_chunk cs) = Some addrs /\
    flat_map ip4_bytes addrs = concat cs.
Proof.
  induction 1 as [|c cs Hc _ [addrs [IHs IHc]]].
  - exists []. split; reflexivity.
  - destruct c as [|b0 [|b1 [|b2 [|b3 [|]]]]]; simpl in Hc; try discriminate.
    exists (mkIpv4 (b0, b1, b2, b3) :: addrs). simpl. rewrite IHs, IHc. split; reflexivity.
Qed.

Lemma ip4_bytes_length (addrs : list Ipv4Addr) :
  List.length (flat_map ip4_bytes addrs) = (4 * List.length addrs)%nat.
Proof.
  induction addrs as [|[[[[b0 b1] b2] b3]] addrs IH]; simpl; [reflexivity |].
  rewrite IH. lia.
Qed.

Lemma window_length (d : Decoder) (n : N) :
  (index d + n <= len d)%N -> List.length (window d n) = N.to_nat n.
Proof. intros H. apply length_slice. exact H. Qed.

Lemma mod_exact (n m : N) : (0 < m)%N -> (n mod m = 0)%N ->
  N.to_nat n = (N.to_nat m * N.to_nat (n / m))%nat.
Proof.
  intros Hm H. rewrite <- N2Nat.inj_mul. f_equal.
  rewrite (N.div_mod n m) at 1 by lia. rewrite H. lia.
Qed.

(** ** C5: [read_ipv4s] *)

(** C5: [read_ipv4s(length)] fails with [NotEnoughBytes] (cursor unchanged)
    when [length] is not a multiple of 4; otherwise it reads [length] bytes
    with [read_slice] and, when they are there, returns [length / 4]
    addresses whose octets are those bytes in consecutive groups of 4, in
    order, the index moving [length] bytes; when the bytes are not there
    [read_slice]'s error is returned and the cursor is unchanged. *)
Theorem read_ipv4s_spec (d : Decoder) (n : N) :
  ((n mod 4 <> 0)%N -> read_ipv4s n d = (d, Err NotEnoughBytes)) /\
  ((n mod 4 = 0)%N -> (index d + n <= usize_max)%N -> (index d + n <= len d)%N ->
     exists addrs,
       read_ipv4s n d = (set_index d (index d + n), Ok addrs) /\
       N.of_nat (List.length addrs) = (n / 4)%N /\
       flat_map ip4_bytes addrs = window d n) /\
  ((n mod 4 = 0)%N -> (len d < index d + n)%N ->
     read_ipv4s n d = (d, Err (if (usize_max <? index d + n)%N then AddOverflow
                               else EndOfBuffer (index d + n)))).
Proof.
  unfold read_ipv4s. split; [| split].
  - intros H. rewrite (proj2 (N.eqb_neq _ _) H). reflexivity.
  - intros H Ho He. rewrite H. change (negb (0 =? 0)%N) with false. cbv iota.
    unfold bind. cbv beta. rewrite read_slice_cases.
    rewrite (proj2 (N.ltb_ge _ _) Ho), (proj2 (N.ltb_ge _ _) He).
    assert (Hw : List.length (window d n) = (4 * N.to_nat (n / 4))%nat)
      by (rewrite window_length by exact He; apply (mod_exact n 4); [lia | exact H]).
    destruct (chunks_exact 4 _ (window d n) ltac:(lia) Hw) as [Hf Hc].
    destruct (collect_ipv4 _ Hf) as [addrs [Hcol Hflat]].
    exists addrs. unfold panic_on_none. rewrite Hcol.
    split; [reflexivity | split].
    + rewrite Hc in Hflat. apply (f_equal (@List.length Z)) in Hflat.
      rewrite ip4_bytes_length, Hw in Hflat. lia.
    + now rewrite Hflat, Hc.
  - intros H He. rewrite H. change (negb (0 =? 0)%N) with false. cbv iota.
    unfold bind. cbv beta. rewrite read_slice_cases.
    destruct (usize_max <? index d + n)%N; [reflexivity |].
    rewrite (proj2 (N.ltb_lt _ _) He). reflexivity.
Qed.

(** A 12-byte buffer gives 3 addresses in order; a length of 10 is refused. *)
Lemma read_ipv4s_spec_witness :
  let d := new [10; 0; 0; 1; 10; 0; 0; 2; 192; 168; 1; 254] in
  read_ipv4s 10 d = (d, Err NotEnoughBytes) /\
  (exists addrs,
     read_ipv4s 12 d = (set_index d 12, Ok addrs) /\
     N.of_nat (List.length addrs) = 3%N /\
     flat_map ip4_bytes addrs = [10; 0; 0; 1; 10; 0; 0; 2; 192; 168; 1; 254]).
Proof.
  intros d. split.
  - apply (proj1 (read_ipv4s_spec d 10)). vm_compute. discriminate.
  - apply (proj1 (proj2 (read_ipv4s_spec d 12)));
      vm_compute; first [reflexivity | discriminate].
Defined.

Example read_ipv4s_three :
  snd (read_ipv4s 12 (new [10; 0; 0; 1; 10; 0; 0; 2; 192; 168; 1; 254])) =
  Ok [mkIpv4 (10, 0, 0, 1); mkIpv4 (10, 0, 0, 2); mkIpv4 (192, 168, 1, 254)].
Proof. reflexivity. Qed.

(** ** C6: fixed-size nul-terminated fields *)

Lemma position_nul_first (l : list Z) (n : nat) :
  nth_error l n = Some 0 -> (forall i, (i < n)%nat -> nth_error l i <> Some 0) ->
  position_nul l = Some n.
Proof.
  revert n. induction l as [|b l IH]; intros n Hn Hbefore.
  - destruct n; discriminate.
  - simpl. destruct n as [|n].
    + simpl in Hn. injection Hn as ->. reflexivity.
    + destruct (Z.eqb_spec b 0) as [->|Hb].
      * exfalso. apply (Hbefore 0%nat); [lia | reflexivity].
      * rewrite (IH n); [reflexivity | exact Hn |].
        intros i Hi. apply (Hbefore (S i)). lia.
Qed.

Lemma position_nul_none (l : list Z) : ~ In 0 l -> position_nul l = None.
Proof.
  induction l as [|b l IH]; intros H; [reflexivity |]. simpl.
  destruct (Z.eqb_spec b 0) as [->|Hb]; [exfalso; apply H; left; reflexivity |].
  rewrite IH; [reflexivity |]. intros Hin. apply H. right. exact Hin.
Qed.

Lemma position_nul_prefix (l : list Z) (n : nat) :
  position_nul l = Some n ->
  position_nul (firstn (S n) l) = Some n /\ List.length (firstn (S n) l) = S n.
Proof.
  revert n. induction l as [|b l IH]; intros n H; [discriminate |].
  simpl in H. destruct (Z.eqb_spec b 0) as [->|Hb].
  - injection H as <-. split; reflexivity.
  - destruct (position_nul l) as [m|] eqn:E; [| discriminate].
    injection H as <-. destruct (IH m eq_refl) as [IH1 IH2].
    change (firstn (S (S m)) (b :: l)) with (b :: firstn (S m) l). cbn [position_nul List.length].
    rewrite (proj2 (Z.eqb_neq _ _) Hb), IH1, IH2. split; reflexivity.
Qed.

Lemma cstr_of_first_nul (l : list Z) (n : nat) :
  position_nul l = Some n ->
  cstr_from_bytes_with_nul (firstn (S n) l) = Some (firstn (S n) l).
Proof.
  intros H. destruct (position_nul_prefix l n H) as [H1 H2].
  unfold cstr_from_bytes_with_nul. rewrite H1, H2, Nat.eqb_refl. reflexivity.
Qed.

(** C6: after a successful [read::<MAX>] of the field [bytes],
    [read_const_string::<MAX>] and [read_cstring::<MAX>] both leave the
    index [MAX] bytes forward, and: a nul first byte gives [None]; a first
    nul at [n > 0] gives the bytes [0..=n], checked as UTF-8 (else
    [Utf8Error]) by the string variant and as a nul-terminated C string
    (never failing) by the C-string variant; no nul at all gives [None]. *)
Theorem read_nul_terminated_spec (d d' : Decoder) (max : N) (bytes : list Z) :
  read max d = (d', Ok bytes) ->
  index d' = (index d + max)%N /\
  fst (read_const_string max d) = d' /\ fst (read_cstring max d) = d' /\
  (nth_error bytes 0 = Some 0 ->
     snd (read_const_string max d) = Ok None /\ snd (read_cstring max d) = Ok None) /\
  (forall n : nat, (0 < n)%nat -> nth_error bytes n = Some 0 ->
     (forall i, (i < n)%nat -> nth_error bytes i <> Some 0) ->
     snd (read_const_string max d) =
       (if utf8_valid (firstn (S n) bytes) then Ok (Some (firstn (S n) bytes))
        else Err Utf8Error) /\
     snd (read_cstring max d) = Ok (Some (firstn (S n) bytes))) /\
  (~ In 0 bytes ->
     snd (read_const_string max d) = Ok None /\ snd (read_cstring max d) = Ok None).
Proof.
  intros Hr.
  assert (Hidx : index d' = (index d + max)%N).
  { pose proof (steps_read max d) as S. rewrite Hr in S.
    destruct S as [[_ Hok]|[-> _]]; [exfalso; exact (Hok bytes eq_refl) | reflexivity]. }
  unfold read_const_string, read_cstring, bind. rewrite Hr.
  split; [exact Hidx |].
  split; [destruct (position_nul bytes) as [[|n]|]; cbv beta iota;
          [| unfold lift_opt, bind; destruct (from_utf8 _) |]; reflexivity |].
  split; [destruct (position_nul bytes) as [[|n]|]; cbv beta iota;
          [| unfold lift_opt, bind; destruct (cstr_from_bytes_with_nul _) |]; reflexivity |].
  split; [| split].
  - intros H0. rewrite (position_nul_first bytes 0 H0) by lia. split; reflexivity.
  - intros n Hn Hnul Hbefore. rewrite (position_nul_first bytes n Hnul Hbefore).
    destruct n as [|n]; [lia |]. cbn [Nat.eqb].
    rewrite (cstr_of_first_nul bytes (S n)) by (apply position_nul_first; assumption).
    unfold from_utf8, lift_opt. destruct (utf8_valid _); split; reflexivity.
  - intros H. rewrite position_nul_none by exact H. split; reflexivity.
Qed.

Lemma read_nul_terminated_spec_witness :
  let d := new [97; 98; 0; 99; 100] in
  read 5 d = (set_index d 5, Ok [97; 98; 0; 99; 100]) /\
  snd (read_const_string 5 d) = Ok (Some [97; 98; 0]) /\
  snd (read_cstring 5 d) = Ok (Some [97; 98; 0]).
Proof.
  intros d.
  assert (Hr : read 5 d = (set_index d 5, Ok [97; 98; 0; 99; 100])) by reflexivity.
  split; [exact Hr |].
  destruct (read_nul_terminated_spec d (set_index d 5) 5 _ Hr)
    as [_ [_ [_ [_ [Hmid _]]]]].
  destruct (Hmid 2%nat) as [Hs Hc].
  - lia.
  - reflexivity.
  - intros i Hi. destruct i as [|[|]]; simpl; try discriminate. lia.
  - split; [exact Hs | exact Hc].
Defined.

(** ** C7: the list reads never hit their internal-consistency failures *)

Lemma collect_some {A} (f : list Z -> option A) (P : list Z -> Prop) (cs : list (list Z)) :
  Forall P cs -> (forall c, P c -> exists a, f c = Some a) ->
  exists l, collect (map f cs) = Some l.
Proof.
  intros HF Hf. induction HF as [|c cs Hc _ [l IH]]; [exists []; reflexivity |].
  destruct (Hf c Hc) as [a Ha]. exists (a :: l). simpl. rewrite Ha, IH. reflexivity.
Qed.

Lemma ipv4_of_chunk_total (c : list Z) :
  List.length c = 4%nat -> exists a, ipv4_of_chunk c = Some a.
Proof.
  intros H. destruct c as [|b0 [|b1 [|b2 [|b3 [|]]]]]; simpl in H; try discriminate.
  eexists. reflexivity.
Qed.

Lemma ipv6_of_chunk_total (c : list Z) :
  List.length c = 16%nat -> exists a, ipv6_of_chunk c = Some a.
Proof.
  intros H. unfold ipv6_of_chunk, try_into_array. rewrite H. eexists. reflexivity.
Qed.

Lemma pair_of_chunk_total (c : list Z) :
  List.length c = 8%nat -> exists a, pair_of_chunk c = Some a.
Proof.
  intros H.
  destruct c as [|b0 [|b1 [|b2 [|b3 [|b4 [|b5 [|b6 [|b7 [|]]]]]]]]]; simpl in H;
    try discriminate.
  eexists. reflexivity.
Qed.

Lemma read_slice_outcome (d : Decoder) (n : N) :
  read_slice n d = (d, Err AddOverflow) \/
  read_slice n d = (d, Err (EndOfBuffer (index d + n))) \/
  (read_slice n d = (set_index d (index d + n), Ok (window d n)) /\ (index d + n <= len d)%N).
Proof.
  rewrite read_slice_cases.
  destruct (N.ltb_spec usize_max (index d + n)); [left; reflexivity | right].
  destruct (N.ltb_spec (len d) (index d + n)); [left; reflexivity | right].
  split; [reflexivity | assumption].
Qed.

(** The chunks of an in-bounds window whose length is a multiple of [k]
    all have exactly [k] bytes. *)
Lemma window_chunks (d : Decoder) (n k : N) :
  (0 < k)%N -> (n mod k = 0)%N -> (index d + n <= len d)%N ->
  Forall (fun c => List.length c = N.to_nat k) (chunks (N.to_nat k) (window d n)).
Proof.
  intros Hk Hm He.
  assert (Hw : List.length (window d n) = (N.to_nat k * N.to_nat (n / k))%nat)
    by (rewrite window_length by exact He; apply mod_exact; assumption).
  exact (proj1 (chunks_exact (N.to_nat k) _ _ ltac:(lia) Hw)).
Qed.

(** The errors a list read may return: a bad length, or [read_slice]'s. *)
Definition list_read_error (e : DecodeError) : Prop :=
  e = NotEnoughBytes \/ e = AddOverflow \/ exists i, e = EndOfBuffer i.

Definition list_read_outcome {A} (r : res A) : Prop :=
  match r with Ok _ => True | Err e => list_read_error e | Panic => False end.

Ltac list_read_cases k n d :=
  destruct (N.eqb_spec (n mod k) 0) as [Hm|Hm]; cbn [negb];
  [| unfold list_read_outcome, list_read_error; simpl; left; reflexivity];
  unfold bind; cbv beta;
  destruct (read_slice_outcome d n) as [E|[E|[E He]]]; rewrite E;
  [ unfold list_read_outcome, list_read_error; simpl; right; left; reflexivity
  | unfold list_read_outcome, list_read_error; simpl; right; right; eexists; reflexivity
  | pose proof (window_chunks d n k ltac:(lia) Hm He) as Hc;
    let kn := eval vm_compute in (N.to_nat k) in change (N.to_nat k) with kn in Hc ].

(** C7: once the length check and [read_slice] have passed, the per-chunk
    conversions of [read_ipv4s], [read_ipv6s] and [read_pair_ipv4s] never
    fail: none of them panics on [bytes[i]] and none returns the
    [TryFromSliceError] conversion error; their only errors are
    [NotEnoughBytes] and those of [read_slice]. *)
Theorem list_reads_total (d : Decoder) (n : N) :
  list_read_outcome (snd (read_ipv4s n d)) /\
  list_read_outcome (snd (read_ipv6s n d)) /\
  list_read_outcome (snd (read_pair_ipv4s n d)).
Proof.
  split; [| split].
  - unfold read_ipv4s. list_read_cases 4%N n d.
    destruct (collect_some ipv4_of_chunk _ _ Hc ipv4_of_chunk_total) as [l Hl].
    unfold panic_on_none. rewrite Hl. exact I.
  - unfold read_ipv6s. list_read_cases 16%N n d.
    destruct (collect_some ipv6_of_chunk _ _ Hc ipv6_of_chunk_total) as [l Hl].
    unfold lift_opt. rewrite Hl. exact I.
  - unfold read_pair_ipv4s. list_read_cases 8%N n d.
    destruct (collect_some pair_of_chunk _ _ Hc pair_of_chunk_total) as [l Hl].
    unfold panic_on_none. rewrite Hl. exact I.
Qed.

(** ** C8: [read_bool] *)

Lemma wf_fits (d : Decoder) (n : N) :
  wf d -> (index d + n <= len d)%N -> (index d + n <= usize_max)%N.
Proof. unfold wf, len, isize_max, usize_max, usize_bits. simpl. lia. Qed.

Lemma window_one (d : Decoder) (b : Z) (rest : list Z) :
  skipn (N.to_nat (index d)) (buffer d) = b :: rest -> window d 1 = [b].
Proof. intros H. unfold window. rewrite H. reflexivity. Qed.

Lemma skipn_cons_bound (d : Decoder) (b : Z) (rest : list Z) :
  skipn (N.to_nat (index d)) (buffer d) = b :: rest -> (index d + 1 <= len d)%N.
Proof.
  intros H. unfold len. apply (f_equal (@List.length Z)) in H.
  rewrite length_skipn in H. simpl in H. lia.
Qed.

(** C8: [read_bool] fails exactly when [read_u8] fails, with the same
    error and cursor; otherwise it returns [true] iff the byte read is 1:
    any byte [b] at the index decodes, to [b =? 1], never to an error. *)
Theorem read_bool_spec (d : Decoder) :
  (forall d' e, read_u8 d = (d', Err e) -> read_bool d = (d', Err e)) /\
  (forall d' v, read_u8 d = (d', Ok v) -> read_bool d = (d', Ok (v =? 1))) /\
  read_u8 d <> (d, Panic) /\
  (wf d -> forall b rest, skipn (N.to_nat (index d)) (buffer d) = b :: rest ->
     read_u8 d = (set_index d (index d + 1), Ok b) /\
     read_bool d = (set_index d (index d + 1), Ok (b =? 1))).
Proof.
  unfold read_bool. split; [| split; [| split]].
  - intros d' e H. unfold bind at 1. rewrite H. reflexivity.
  - intros d' v H. unfold bind at 1. rewrite H. reflexivity.
  - unfold read_u8, bind. rewrite read_cases.
    destruct (usize_max <? index d + 1)%N; [discriminate |].
    destruct (len d <? index d + 1)%N; discriminate.
  - intros Hwf b rest Hs.
    assert (Hb : (index d + 1 <= len d)%N) by exact (skipn_cons_bound d b rest Hs).
    assert (Hu : read_u8 d = (set_index d (index d + 1), Ok b)).
    { unfold read_u8, bind. rewrite read_cases.
      rewrite (proj2 (N.ltb_ge _ _) (wf_fits d 1 Hwf Hb)), (proj2 (N.ltb_ge _ _) Hb).
      rewrite (window_one d b rest Hs). reflexivity. }
    split; [exact Hu |]. unfold bind at 1. rewrite Hu. reflexivity.
Qed.

Lemma read_bool_spec_witness :
  read_bool (new [1]) = (set_index (new [1]) 1, Ok true) /\
  read_bool (new [0]) = (set_index (new [0]) 1, Ok false) /\
  read_bool (new [2]) = (set_index (new [2]) 1, Ok false).
Proof.
  split; [| split];
    [ apply (proj2 (proj2 (proj2 (read_bool_spec (new [1])))) ltac:(vm_compute; split; discriminate) 1 [])
    | apply (proj2 (proj2 (proj2 (read_bool_spec (new [0])))) ltac:(vm_compute; split; discriminate) 0 [])
    | apply (proj2 (proj2 (proj2 (read_bool_spec (new [2])))) ltac:(vm_compute; split; discriminate) 2 []) ];
    reflexivity.
Defined.

(** ** C9: the unread bytes *)

Definition four_bytes : list Z := [1; 2; 3; 4].

(** C9 (as stated: after reading [N] bytes from a fresh cursor the
    remaining view starts at [original_length - N]) is false: after one
    byte of [[1; 2; 3; 4]] the view is [[2; 3; 4]], which starts at offset
    1, not at offset [4 - 1 = 3]. *)
Lemma remaining_start_counterexample :
  read 1 (new four_bytes) = (set_index (new four_bytes) 1, Ok [1]) /\
  remaining (set_index (new four_bytes) 1) = Some [2; 3; 4] /\
  remaining (set_index (new four_bytes) 1) <>
    Some (skipn (List.length four_bytes - 1) four_bytes).
Proof.
  split; [reflexivity | split; [reflexivity |]]. vm_compute. discriminate.
Qed.

(** C9 (amended): after successfully reading [N] bytes from a fresh cursor
    over [buf], [buffer()] is [buf[N..]]: it starts at offset [N] and holds
    exactly [length buf - N] bytes.  [buffer()] returns the bytes from the
    index to the end of the buffer and leaves the cursor where it is. *)
Theorem remaining_after_read :
  (forall (buf : list Z) (n : N) (d' : Decoder) (bytes : list Z),
     read n (new buf) = (d', Ok bytes) ->
     remaining d' = Some (skipn (N.to_nat n) buf) /\
     List.length (skipn (N.to_nat n) buf) = (List.length buf - N.to_nat n)%nat) /\
  (forall d : Decoder, wf d ->
     remaining d = Some (skipn (N.to_nat (index d)) (buffer d)) /\
     fst (run_op OpBuffer d) = d).
Proof.
  split.
  - intros buf n d' bytes H.
    pose proof (steps_read n (new buf)) as S. rewrite H in S.
    destruct S as [[_ Hok]|[-> Hle]]; [exfalso; exact (Hok bytes eq_refl) |].
    unfold remaining, len in *. simpl in *.
    rewrite (proj2 (N.leb_le _ _) Hle).
    split; [reflexivity | apply length_skipn].
  - intros d [H1 _]. cbn [run_op]. unfold remaining.
    rewrite (proj2 (N.leb_le _ _) H1). split; reflexivity.
Qed.

Lemma remaining_after_read_witness :
  remaining (set_index (new four_bytes) 1) = Some [2; 3; 4] /\
  List.length [2; 3; 4] = 3%nat /\
  remaining (set_index (new four_bytes) 4) = Some [] /\
  fst (run_op OpBuffer (set_index (new four_bytes) 4)) = set_index (new four_bytes) 4.
Proof.
  destruct (proj1 remaining_after_read four_bytes 1%N _ _
              (eq_refl : read 1 (new four_bytes) = (set_index (new four_bytes) 1, Ok [1])))
    as [H1 H2].
  destruct (proj2 remaining_after_read (set_index (new four_bytes) 4)
              ltac:(vm_compute; split; discriminate)) as [H3 H4].
  split; [exact H1 | split; [exact H2 | split; [exact H3 | exact H4]]].
Defined.

(** ** C10: zero-length reads *)

(** C10: on a well-formed cursor, also at the end of the buffer, a read of
    zero bytes succeeds without moving the index: [read_slice(0)] and
    [read::<0>()] return the empty byte sequence and [read_string(0)] the
    empty string. *)
Theorem zero_length_reads (d : Decoder) :
  wf d ->
  read_slice 0 d = (d, Ok []) /\ read 0 d = (d, Ok []) /\ read_string 0 d = (d, Ok []).
Proof.
  intros Hwf.
  assert (Hl : (index d + 0 <= len d)%N) by (destruct Hwf; unfold len; lia).
  pose proof (wf_fits d 0 Hwf Hl) as Ho.
  assert (Hs : read_slice 0 d = (d, Ok [])).
  { rewrite read_slice_cases, (proj2 (N.ltb_ge _ _) Ho), (proj2 (N.ltb_ge _ _) Hl).
    rewrite N.add_0_r, set_index_same. reflexivity. }
  split; [exact Hs | split].
  - rewrite read_cases, (proj2 (N.ltb_ge _ _) Ho), (proj2 (N.ltb_ge _ _) Hl).
    rewrite N.add_0_r, set_index_same. reflexivity.
  - unfold read_string, bind. rewrite Hs. reflexivity.
Qed.

Lemma zero_length_reads_witness :
  let d := set_index (new [7; 8]) 2 in
  read_slice 0 d = (d, Ok []) /\ read 0 d = (d, Ok []) /\ read_string 0 d = (d, Ok []).
Proof.
  intros d. apply zero_length_reads. vm_compute. split; discriminate.
Defined.

(** * Further properties of the decoder *)

(** ** Helpers *)

Lemma read_in_bounds (d : Decoder) (n : N) :
  wf d -> (index d + n <= len d)%N ->
  read n d = (set_index d (index d + n), Ok (window d n)) /\
  read_slice n d = (set_index d (index d + n), Ok (window d n)).
Proof.
  intros Hwf He. pose proof (wf_fits d n Hwf He) as Ho.
  rewrite read_cases, read_slice_cases, (proj2 (N.ltb_ge _ _) Ho), (proj2 (N.ltb_ge _ _) He).
  split; reflexivity.
Qed.

Lemma firstn_add_split (a b : nat) (l : list Z) :
  firstn (a + b) l = firstn a l ++ firstn b (skipn a l).
Proof.
  revert l. induction a as [|a IH]; intros l; [reflexivity |].
  destruct l as [|x l]; simpl; [now rewrite firstn_nil | now rewrite IH].
Qed.

Lemma window_split (d : Decoder) (a b : N) :
  window d (a + b) = window d a ++ window (set_index d (index d + a)) b.
Proof.
  unfold window. simpl. rewrite N2Nat.inj_add, firstn_add_split, skipn_skipn.
  rewrite N2Nat.inj_add. do 3 f_equal. lia.
Qed.

(** ** [read_ipv4] *)

(** [read_ipv4(length)] refuses any [length] other than 4 with
    [NotEnoughBytes], leaving the cursor alone; with [length = 4] it reads
    the next 4 bytes as the octets of one address when they are there, and
    otherwise fails with [EndOfBuffer] without moving. *)
Theorem read_ipv4_spec (d : Decoder) (n : N) :
  (n <> 4%N -> read_ipv4 n d = (d, Err NotEnoughBytes)) /\
  (wf d -> (index d + 4 <= len d)%N ->
     exists a, read_ipv4 4 d = (set_index d (index d + 4), Ok a) /\
       ip4_bytes a = window d 4) /\
  (wf d -> (len d < index d + 4)%N ->
     read_ipv4 4 d = (d, Err (EndOfBuffer (index d + 4)))).
Proof.
  unfold read_ipv4. split; [| split].
  - intros H. rewrite (proj2 (N.eqb_neq _ _) H). reflexivity.
  - intros Hwf He. cbn [N.eqb Pos.eqb negb]. unfold bind.
    rewrite (proj1 (read_in_bounds d 4 Hwf He)).
    assert (Hl : List.length (window d 4) = 4%nat) by (rewrite window_length; [reflexivity | exact He]).
    destruct (window d 4) as [|b0 [|b1 [|b2 [|b3 [|]]]]]; simpl in Hl; try discriminate.
    eexists. split; reflexivity.
  - intros Hwf He. cbn [N.eqb Pos.eqb negb]. unfold bind. rewrite read_cases.
    destruct Hwf as [Hi Hw]. unfold len in *.
    rewrite (proj2 (N.ltb_ge usize_max _)) by (unfold usize_max, isize_max, usize_bits in *; simpl in *; lia).
    rewrite (proj2 (N.ltb_lt _ _) He). reflexivity.
Qed.

Lemma read_ipv4_spec_witness :
  let d := new [192; 168; 0; 1] in
  read_ipv4 6 d = (d, Err NotEnoughBytes) /\
  (exists a, read_ipv4 4 d = (set_index d 4, Ok a) /\ ip4_bytes a = [192; 168; 0; 1]) /\
  read_ipv4 4 (set_index d 4) = (set_index d 4, Err (EndOfBuffer 8)).
Proof.
  intros d. split; [| split].
  - apply (proj1 (read_ipv4_spec d 6)). discriminate.
  - apply (proj1 (proj2 (read_ipv4_spec d 4))); vm_compute; first [split; discriminate | discriminate].
  - apply (proj2 (proj2 (read_ipv4_spec (set_index d 4) 4))); vm_compute;
      first [split; discriminate | reflexivity].
Defined.

(** ** [read_string] *)

(** When the [len] bytes are there, [read_string(len)] consumes them
    whether or not they are UTF-8: it returns them as the string when they
    are valid UTF-8 and fails with [Utf8Error] otherwise, the index having
    moved [len] bytes in both cases. *)
Theorem read_string_in_bounds (d : Decoder) (n : N) :
  wf d -> (index d + n <= len d)%N ->
  read_string n d =
  (set_index d (index d + n),
   if utf8_valid (window d n) then Ok (window d n) else Err Utf8Error).
Proof.
  intros Hwf He. unfold read_string, bind.
  rewrite (proj2 (read_in_bounds d n Hwf He)).
  unfold lift_opt, from_utf8. destruct (utf8_valid (window d n)); reflexivity.
Qed.

Lemma read_string_in_bounds_witness :
  read_string 2 (new [104; 105; 255]) = (set_index (new [104; 105; 255]) 2, Ok [104; 105]) /\
  read_string 2 (new [255; 105]) = (set_index (new [255; 105]) 2, Err Utf8Error).
Proof.
  split; [rewrite (read_string_in_bounds (new [104; 105; 255]) 2)
         | rewrite (read_string_in_bounds (new [255; 105]) 2)];
    first [reflexivity | vm_compute; first [split; discriminate | discriminate]].
Defined.

(** ** Reads compose *)

(** Within the buffer, reading [a] bytes and then [b] bytes (with
    [read_slice] or with [read]) consumes and returns the same as one read
    of [a + b] bytes. *)
Theorem reads_compose (d : Decoder) (a b : N) :
  wf d -> (index d + a + b <= len d)%N ->
  (x <- read_slice a ;; y <- read_slice b ;; ret (x ++ y)) d = read_slice (a + b) d /\
  (x <- read a ;; y <- read b ;; ret (x ++ y)) d = read (a + b) d.
Proof.
  intros Hwf He.
  assert (Ha : (index d + a <= len d)%N) by lia.
  assert (Hab : (index d + (a + b) <= len d)%N) by lia.
  set (d1 := set_index d (index d + a)).
  assert (Hwf1 : wf d1) by (unfold wf, len in *; simpl; lia).
  assert (Hb : (index d1 + b <= len d1)%N) by (unfold len in *; simpl; lia).
  destruct (read_in_bounds d a Hwf Ha) as [Ra Sa].
  destruct (read_in_bounds d1 b Hwf1 Hb) as [Rb Sb].
  destruct (read_in_bounds d (a + b) Hwf Hab) as [Rab Sab].
  unfold bind. rewrite Ra, Sa. fold d1. rewrite Rb, Sb, Rab, Sab.
  unfold ret. rewrite window_split. unfold d1. simpl. rewrite N.add_assoc.
  split; reflexivity.
Qed.

Lemma reads_compose_witness :
  let d := new [1; 2; 3; 4; 5] in
  (x <- read_slice 2 ;; y <- read_slice 3 ;; ret (x ++ y)) d = read_slice 5 d /\
  (x <- read 2 ;; y <- read 3 ;; ret (x ++ y)) d = read 5 d.
Proof.
  intros d. apply (reads_compose d 2 3); vm_compute; first [split; discriminate | discriminate].
Defined.

(** ** [read_ipv6s] and [read_pair_ipv4s] *)

(** Converting chunks of [k] bytes each with a conversion [f] that accepts
    every [k]-byte chunk and keeps its bytes ([g] gives them back). *)
Lemma collect_partition {A} (f : list Z -> option A) (g : A -> list Z) (k : nat)
    (cs : list (list Z)) :
  Forall (fun c => List.length c = k) cs ->
  (forall c, List.length c = k -> exists a, f c = Some a /\ g a = c) ->
  exists l, collect (map f cs) = Some l /\ flat_map g l = concat cs /\
    List.length l = List.length cs /\ Forall (fun a => List.length (g a) = k) l.
Proof.
  intros HF Hf. induction HF as [|c cs Hc _ [l [IH1 [IH2 [IH3 IH4]]]]].
  - exists []. repeat split; constructor.
  - destruct (Hf c Hc) as [a [Ha Hg]]. exists (a :: l). simpl.
    rewrite Ha, IH1, IH2, IH3, Hg.
    split; [reflexivity | split; [reflexivity | split; [reflexivity |]]].
    constructor; [rewrite Hg; exact Hc | exact IH4].
Qed.

Lemma concat_length_exact (k : nat) (cs : list (list Z)) :
  Forall (fun c => List.length c = k) cs ->
  List.length (concat cs) = (k * List.length cs)%nat.
Proof.
  induction 1 as [|c cs Hc _ IH]; simpl; [lia |].
  rewrite length_app, Hc, IH. lia.
Qed.

(** The outcome of a list read whose length check passed and whose bytes
    are there, for a chunk size [k] and conversion [f] as above. *)
Lemma list_read_partition {A} (f : list Z -> option A) (g : A -> list Z)
    (d : Decoder) (n k : N) :
  (0 < k)%N -> (n mod k = 0)%N -> (index d + n <= len d)%N ->
  (forall c, List.length c = N.to_nat k -> exists a, f c = Some a /\ g a = c) ->
  exists l, collect (map f (chunks (N.to_nat k) (window d n))) = Some l /\
    flat_map g l = window d n /\ N.of_nat (List.length l) = (n / k)%N /\
    Forall (fun a => List.length (g a) = N.to_nat k) l.
Proof.
  intros Hk Hm He Hf.
  assert (Hw : List.length (window d n) = (N.to_nat k * N.to_nat (n / k))%nat)
    by (rewrite window_length by exact He; apply mod_exact; assumption).
  destruct (chunks_exact (N.to_nat k) _ _ ltac:(lia) Hw) as [HF Hc].
  destruct (collect_partition f g _ _ HF Hf) as [l [H1 [H2 [H3 H4]]]].
  exists l. rewrite Hc in H2. repeat split; try assumption.
  pose proof (concat_length_exact _ _ HF) as HL. rewrite Hc, Hw in HL.
  assert (N.to_nat (n / k) = List.length (chunks (N.to_nat k) (window d n))) by nia.
  lia.
Qed.

Lemma ipv6_of_chunk_keeps (c : list Z) :
  List.length c = 16%nat -> exists a, ipv6_of_chunk c = Some a /\ ip6_octets a = c.
Proof.
  intros H. unfold ipv6_of_chunk, try_into_array. rewrite H. eexists. split; reflexivity.
Qed.

(** [read_ipv6s(length)] refuses a [length] that is not a multiple of 16
    with [NotEnoughBytes], leaving the cursor alone; otherwise, when the
    bytes are there, it consumes them and returns [length / 16] addresses
    of 16 octets each whose octets, in order, are exactly those bytes. *)
Theorem read_ipv6s_spec (d : Decoder) (n : N) :
  ((n mod 16 <> 0)%N -> read_ipv6s n d = (d, Err NotEnoughBytes)) /\
  ((n mod 16 = 0)%N -> wf d -> (index d + n <= len d)%N ->
     exists addrs,
       read_ipv6s n d = (set_index d (index d + n), Ok addrs) /\
       N.of_nat (List.length addrs) = (n / 16)%N /\
       flat_map ip6_octets addrs = window d n /\
       Forall (fun a => List.length (ip6_octets a) = 16%nat) addrs).
Proof.
  unfold read_ipv6s. split.
  - intros H. rewrite (proj2 (N.eqb_neq _ _) H). reflexivity.
  - intros H Hwf He. rewrite H. change (negb (0 =? 0)%N) with false. cbv iota.
    unfold bind. cbv beta. rewrite (proj2 (read_in_bounds d n Hwf He)).
    destruct (list_read_partition ipv6_of_chunk ip6_octets d n 16 ltac:(lia) H He
                ipv6_of_chunk_keeps) as [l [H1 [H2 [H3 H4]]]].
    change (N.to_nat 16) with 16%nat in H1.
    exists l. unfold lift_opt. rewrite H1. repeat split; assumption.
Qed.

Lemma read_ipv6s_spec_witness :
  let d := new (repeat 0 16 ++ repeat 255 16) in
  read_ipv6s 20 d = (d, Err NotEnoughBytes) /\
  (exists addrs,
     read_ipv6s 32 d = (set_index d 32, Ok addrs) /\
     N.of_nat (List.length addrs) = 2%N /\
     flat_map ip6_octets addrs = repeat 0 16 ++ repeat 255 16 /\
     Forall (fun a => List.length (ip6_octets a) = 16%nat) addrs).
Proof.
  intros d. split.
  - apply (proj1 (read_ipv6s_spec d 20)). vm_compute. discriminate.
  - apply (proj2 (read_ipv6s_spec d 32)); vm_compute;
      first [reflexivity | split; discriminate | discriminate].
Defined.

(** The 8 octets of a pair: the first address, then the second. *)
Definition pair_bytes (p : Ipv4Addr * Ipv4Addr) : list Z :=
  ip4_bytes (fst p) ++ ip4_bytes (snd p).

Lemma pair_of_chunk_keeps (c : list Z) :
  List.length c = 8%nat -> exists a, pair_of_chunk c = Some a /\ pair_bytes a = c.
Proof.
  intros H.
  destruct c as [|b0 [|b1 [|b2 [|b3 [|b4 [|b5 [|b6 [|b7 [|]]]]]]]]]; simpl in H;
    try discriminate.
  eexists. split; reflexivity.
Qed.

(** [read_pair_ipv4s(length)] refuses a [length] that is not a multiple of
    8 with [NotEnoughBytes], leaving the cursor alone; otherwise, when the
    bytes are there, it consumes them and returns [length / 8] pairs: each
    group of 8 bytes gives its first 4 bytes as the first address and its
    last 4 as the second, in order. *)
Theorem read_pair_ipv4s_spec (d : Decoder) (n : N) :
  ((n mod 8 <> 0)%N -> read_pair_ipv4s n d = (d, Err NotEnoughBytes)) /\
  ((n mod 8 = 0)%N -> wf d -> (index d + n <= len d)%N ->
     exists pairs,
       read_pair_ipv4s n d = (set_index d (index d + n), Ok pairs) /\
       N.of_nat (List.length pairs) = (n / 8)%N /\
       flat_map pair_bytes pairs = window d n).
Proof.
  unfold read_pair_ipv4s. split.
  - intros H. rewrite (proj2 (N.eqb_neq _ _) H). reflexivity.
  - intros H Hwf He. rewrite H. change (negb (0 =? 0)%N) with false. cbv iota.
    unfold bind. cbv beta. rewrite (proj2 (read_in_bounds d n Hwf He)).
    destruct (list_read_partition pair_of_chunk pair_bytes d n 8 ltac:(lia) H He
                pair_of_chunk_keeps) as [l [H1 [H2 [H3 _]]]].
    change (N.to_nat 8) with 8%nat in H1.
    exists l. unfold panic_on_none. rewrite H1. repeat split; assumption.
Qed.

Lemma read_pair_ipv4s_spec_witness :
  let d := new [10; 0; 0; 1; 10; 0; 0; 254] in
  read_pair_ipv4s 4 d = (d, Err NotEnoughBytes) /\
  (exists pairs,
     read_pair_ipv4s 8 d = (set_index d 8, Ok pairs) /\
     N.of_nat (List.length pairs) = 1%N /\
     flat_map pair_bytes pairs = [10; 0; 0; 1; 10; 0; 0; 254]).
Proof.
  intros d. split.
  - apply (proj1 (read_pair_ipv4s_spec d 4)). vm_compute. discriminate.
  - apply (proj2 (read_pair_ipv4s_spec d 8)); vm_compute;
      first [reflexivity | split; discriminate | discriminate].
Defined.

(** ** Typed reads stay in their type's range *)

(** The buffer holds [u8] values. *)
Definition bytes_ok (l : list Z) : Prop := Forall (fun b => 0 <= b < 256) l.

Lemma Forall_firstn_Z (P : Z -> Prop) (n : nat) (l : list Z) :
  Forall P l -> Forall P (firstn n l).
Proof.
  revert l. induction n as [|n IH]; intros l H; [constructor |].
  destruct H as [|x l Hx Hl]; simpl; constructor; auto.
Qed.

Lemma Forall_skipn_Z (P : Z -> Prop) (n : nat) (l : list Z) :
  Forall P l -> Forall P (skipn n l).
Proof.
  revert l. induction n as [|n IH]; intros l H; [exact H |].
  destruct H as [|x l Hx Hl]; simpl; [constructor | auto].
Qed.

Lemma bytes_ok_window (d : Decoder) (n : N) :
  bytes_ok (buffer d) -> bytes_ok (window d n).
Proof. intros H. apply Forall_firstn_Z, Forall_skipn_Z, H. Qed.

Lemma from_be_bytes_acc (l : list Z) (acc : Z) :
  bytes_ok l -> 0 <= acc ->
  0 <= fold_left (fun acc b => acc * 256 + b) l acc < (acc + 1) * 256 ^ Z.of_nat (List.length l).
Proof.
  revert acc. induction l as [|b l IH]; intros acc Hl Hacc.
  - simpl. lia.
  - unfold bytes_ok in Hl. inversion Hl as [|? ? Hb Hl']; subst. cbv beta in Hb.
    simpl fold_left.
    specialize (IH (acc * 256 + b) Hl' ltac:(lia)).
    replace (Z.of_nat (List.length (b :: l))) with (1 + Z.of_nat (List.length l)) by (cbn [List.length]; lia).
    rewrite Z.pow_add_r by lia.
    assert (0 < 256 ^ Z.of_nat (List.length l)) by (apply Z.pow_pos_nonneg; lia).
    nia.
Qed.

Lemma from_be_bytes_range (l : list Z) :
  bytes_ok l -> 0 <= from_be_bytes l < 2 ^ (8 * Z.of_nat (List.length l)).
Proof.
  intros H. pose proof (from_be_bytes_acc l 0 H ltac:(lia)) as R.
  unfold from_be_bytes. rewrite Z.pow_mul_r by lia. change (2 ^ 8) with 256. lia.
Qed.

Lemma read_ok_window (d d' : Decoder) (n : N) (bytes : list Z) :
  read n d = (d', Ok bytes) -> bytes = window d n /\ List.length bytes = N.to_nat n.
Proof.
  rewrite read_cases. intros H.
  destruct (N.ltb_spec usize_max (index d + n)); [discriminate |].
  destruct (N.ltb_spec (len d) (index d + n)); [discriminate |].
  injection H as _ <-. split; [reflexivity | apply window_length; assumption].
Qed.

(** Over a buffer of [u8] values, a successful [read_u8], [read_u16],
    [read_u32] or [read_u64] returns a value of that unsigned type, and a
    successful [read_i32] a value of [i32]. *)
Theorem typed_read_ranges (d : Decoder) :
  bytes_ok (buffer d) ->
  (forall d' v, read_u8 d = (d', Ok v) -> 0 <= v < 2 ^ 8) /\
  (forall d' v, read_u16 d = (d', Ok v) -> 0 <= v < 2 ^ 16) /\
  (forall d' v, read_u32 d = (d', Ok v) -> 0 <= v < 2 ^ 32) /\
  (forall d' v, read_u64 d = (d', Ok v) -> 0 <= v < 2 ^ 64) /\
  (forall d' v, read_i32 d = (d', Ok v) -> - 2 ^ 31 <= v < 2 ^ 31).
Proof.
  intros Hok.
  assert (G : forall n d' bytes, read n d = (d', Ok bytes) ->
            0 <= from_be_bytes bytes < 2 ^ (8 * Z.of_N n)).
  { intros n d' bytes H. destruct (read_ok_window d d' n bytes H) as [-> Hl].
    pose proof (from_be_bytes_range (window d n) (bytes_ok_window d n Hok)) as R.
    rewrite Hl, N_nat_Z in R. exact R. }
  unfold read_u8, read_u16, read_u32, read_u64, read_i32, bind, ret.
  split; [| split; [| split; [| split]]]; intros d2 v H;
    (destruct (read _ d) as [d1 [bytes| |]] eqn:E; [| discriminate | discriminate]);
    injection H as _ <-; apply G in E; simpl (8 * Z.of_N _) in E; try lia.
  unfold i32_from_be_bytes.
  destruct (Z.ltb_spec (from_be_bytes bytes) (2 ^ 31)); lia.
Qed.

Lemma typed_read_ranges_witness :
  let d := new [255; 255; 255; 255; 255; 255; 255; 255] in
  read_u64 d = (set_index d 8, Ok (2 ^ 64 - 1)) /\ 0 <= 2 ^ 64 - 1 < 2 ^ 64 /\
  read_i32 d = (set_index d 4, Ok (-1)) /\ - 2 ^ 31 <= -1 < 2 ^ 31.
Proof.
  intros d.
  destruct (typed_read_ranges d ltac:(repeat constructor; lia)) as [_ [_ [_ [H64 Hi]]]].
  split; [reflexivity | split; [| split; [reflexivity |]]].
  - exact (H64 (set_index d 8) (2 ^ 64 - 1) eq_refl).
  - exact (Hi (set_index d 4) (-1) eq_refl).
Defined.

(** ** What the nul-terminated reads return *)

Lemma position_nul_spec (l : list Z) (n : nat) :
  position_nul l = Some n ->
  nth_error l n = Some 0 /\ forall i, (i < n)%nat -> nth_error l i <> Some 0.
Proof.
  revert n. induction l as [|b l IH]; intros n H; [discriminate |].
  simpl in H. destruct (Z.eqb_spec b 0) as [->|Hb].
  - injection H as <-. split; [reflexivity | intros i Hi; lia].
  - destruct (position_nul l) as [m|]; [| discriminate]. injection H as <-.
    destruct (IH m eq_refl) as [H1 H2]. split; [exact H1 |].
    intros [|i] Hi; simpl; [congruence | apply H2; lia].
Qed.

(** The shape of a present value [c] returned by [read_cstring::<MAX>] or
    [read_const_string::<MAX>]: it is a prefix of the [MAX] bytes read, at
    least 2 bytes long, its last byte is its only nul byte, and for the
    string variant it is valid UTF-8. *)
Definition nul_terminated_prefix (bytes c : list Z) : Prop :=
  (2 <= List.length c)%nat /\ c = firstn (List.length c) bytes /\
  nth_error c (List.length c - 1) = Some 0 /\
  (forall i, (i < List.length c - 1)%nat -> nth_error c i <> Some 0).

Lemma some_field_shape (bytes : list Z) (n : nat) :
  position_nul bytes = Some n -> n <> 0%nat ->
  nul_terminated_prefix bytes (firstn (S n) bytes).
Proof.
  intros H Hn. destruct (position_nul_prefix bytes n H) as [H1 H2].
  destruct (position_nul_spec _ _ H1) as [H3 H4].
  unfold nul_terminated_prefix. rewrite H2.
  replace (S n - 1)%nat with n by lia.
  split; [lia | split; [reflexivity | split; assumption]].
Qed.

(** A present value returned by [read_cstring::<MAX>] or
    [read_const_string::<MAX>] is a nul-terminated prefix (at least one
    character and the terminator, no interior nul) of the [MAX] bytes the
    call consumed; the string variant's value is also valid UTF-8. *)
Theorem nul_terminated_results (d d' : Decoder) (max : N) (c : list Z) :
  (read_cstring max d = (d', Ok (Some c)) ->
     exists bytes, read max d = (d', Ok bytes) /\ nul_terminated_prefix bytes c) /\
  (read_const_string max d = (d', Ok (Some c)) ->
     exists bytes, read max d = (d', Ok bytes) /\ nul_terminated_prefix bytes c /\
       utf8_valid c = true).
Proof.
  unfold read_cstring, read_const_string, bind.
  destruct (read max d) as [d1 [bytes| |]]; [| split; discriminate | split; discriminate].
  destruct (position_nul bytes) as [n|] eqn:E; [| split; discriminate].
  destruct (Nat.eqb_spec n 0) as [->|Hn]; [split; discriminate |].
  split; intros H.
  - rewrite (cstr_of_first_nul _ _ E) in H. cbv in H. injection H as <- <-.
    exists bytes. split; [reflexivity | exact (some_field_shape _ _ E Hn)].
  - unfold lift_opt, from_utf8 in H.
    destruct (utf8_valid (firstn (S n) bytes)) eqn:U; [| discriminate].
    cbv in H. injection H as <- <-.
    exists bytes. split; [reflexivity | split; [exact (some_field_shape _ _ E Hn) | exact U]].
Qed.

Lemma nul_terminated_results_witness :
  let d := new [104; 105; 0; 120] in
  exists bytes, read 4 d = (set_index d 4, Ok bytes) /\
    nul_terminated_prefix bytes [104; 105; 0] /\ utf8_valid [104; 105; 0] = true.
Proof.
  intros d. apply (proj2 (nul_terminated_results d (set_index d 4) 4 [104; 105; 0])).
  reflexivity.
Defined.

(** ** [read_ipv4s] is [read_ipv4(4)] repeated *)

(** A caller reading [k] values one after the other. *)
Fixpoint read_n_times {A} (k : nat) (m : M A) : M (list A) :=
  match k with
  | O => ret []
  | S k' => a <- m ;; rest <- read_n_times k' m ;; ret (a :: rest)
  end.

Lemma ip4_bytes_inj (l1 l2 : list Ipv4Addr) :
  flat_map ip4_bytes l1 = flat_map ip4_bytes l2 -> l1 = l2.
Proof.
  revert l2. induction l1 as [|[[[[a b] c] e]] l1 IH]; intros [|[[[[a' b'] c'] e']] l2] H;
    simpl in H; try discriminate; [reflexivity |].
  injection H as -> -> -> -> H. f_equal. apply IH, H.
Qed.

Lemma read_ipv4_repeat (k : nat) : forall d : Decoder,
  wf d -> (index d + 4 * N.of_nat k <= len d)%N ->
  exists addrs,
    read_n_times k (read_ipv4 4) d = (set_index d (index d + 4 * N.of_nat k), Ok addrs) /\
    flat_map ip4_bytes addrs = window d (4 * N.of_nat k).
Proof.
  induction k as [|k IH]; intros d Hwf He.
  - exists []. simpl. rewrite N.add_0_r, set_index_same. split; reflexivity.
  - rewrite Nat2N.inj_succ in He. rewrite Nat2N.inj_succ.
    assert (H4 : (index d + 4 <= len d)%N) by lia.
    destruct (proj1 (proj2 (read_ipv4_spec d 4)) Hwf H4) as [a [Ha Hab]].
    set (d1 := set_index d (index d + 4)).
    assert (Hwf1 : wf d1) by (unfold d1, wf, len in *; cbn [index buffer set_index]; lia).
    assert (He1 : (index d1 + 4 * N.of_nat k <= len d1)%N)
      by (unfold d1, len in *; cbn [index buffer set_index]; lia).
    destruct (IH d1 Hwf1 He1) as [rest [Hr Hrb]].
    exists (a :: rest). cbn [read_n_times]. unfold bind at 1. rewrite Ha. fold d1.
    unfold bind. rewrite Hr. unfold ret. split.
    + unfold d1, set_index. cbn [index buffer]. f_equal. f_equal. lia.
    + replace (4 * N.succ (N.of_nat k))%N with (4 + 4 * N.of_nat k)%N by lia.
      rewrite window_split. simpl flat_map. rewrite Hab, Hrb. reflexivity.
Qed.

(** Within the buffer, [read_ipv4s(4 * k)] returns and consumes the same
    as [k] successive [read_ipv4(4)] calls. *)
Theorem read_ipv4s_repeat (d : Decoder) (k : nat) :
  wf d -> (index d + 4 * N.of_nat k <= len d)%N ->
  read_ipv4s (4 * N.of_nat k) d = read_n_times k (read_ipv4 4) d.
Proof.
  intros Hwf He.
  destruct (read_ipv4_repeat k d Hwf He) as [addrs [Hr Hb]].
  destruct (proj1 (proj2 (read_ipv4s_spec d (4 * N.of_nat k))))
    as [addrs' [Hr' [_ Hb']]].
  - rewrite N.mul_comm. apply N.Div0.mod_mul.
  - exact (wf_fits d _ Hwf He).
  - exact He.
  - rewrite Hr, Hr'. rewrite <- Hb in Hb'. apply ip4_bytes_inj in Hb'. now subst.
Qed.

Lemma read_ipv4s_repeat_witness :
  let d := new [10; 0; 0; 1; 10; 0; 0; 2] in
  read_ipv4s 8 d = read_n_times 2 (read_ipv4 4) d.
Proof.
  intros d. apply (read_ipv4s_repeat d 2); vm_compute; first [split; discriminate | discriminate].
Defined.

(** ** Wide reads are narrow reads put together, big-endian *)

Lemma fold_be_acc (l : list Z) (acc : Z) :
  fold_left (fun acc b => acc * 256 + b) l acc =
  acc * 256 ^ Z.of_nat (List.length l) + from_be_bytes l.
Proof.
  unfold from_be_bytes. revert acc. induction l as [|b l IH]; intros acc.
  - simpl. lia.
  - cbn [fold_left]. rewrite (IH (acc * 256 + b)), (IH (0 * 256 + b)).
    replace (Z.of_nat (List.length (b :: l))) with (1 + Z.of_nat (List.length l))
      by (cbn [List.length]; lia).
    rewrite Z.pow_add_r by lia. lia.
Qed.

Lemma from_be_bytes_app (l1 l2 : list Z) :
  from_be_bytes (l1 ++ l2) = from_be_bytes l1 * 256 ^ Z.of_nat (List.length l2) + from_be_bytes l2.
Proof. unfold from_be_bytes at 1. rewrite fold_left_app. apply fold_be_acc. Qed.

Lemma read_be_in_bounds (d : Decoder) (n : N) :
  wf d -> (index d + n <= len d)%N ->
  (b <- read n ;; ret (from_be_bytes b)) d =
  (set_index d (index d + n), Ok (from_be_bytes (window d n))).
Proof.
  intros Hwf He. unfold bind. rewrite (proj1 (read_in_bounds d n Hwf He)). reflexivity.
Qed.

(** Within the buffer, [read_u32] gives the same value and cursor as two
    [read_u16] calls [hi], [lo] combined as [hi * 2^16 + lo], and [read_u64]
    the same as two [read_u32] calls combined as [hi * 2^32 + lo]. *)
Theorem wide_reads_split (d : Decoder) :
  wf d ->
  ((index d + 4 <= len d)%N ->
     (hi <- read_u16 ;; lo <- read_u16 ;; ret (hi * 2 ^ 16 + lo)) d = read_u32 d) /\
  ((index d + 8 <= len d)%N ->
     (hi <- read_u32 ;; lo <- read_u32 ;; ret (hi * 2 ^ 32 + lo)) d = read_u64 d).
Proof.
  intros Hwf.
  assert (G : forall w : N, (0 < w)%N -> (index d + (w + w) <= len d)%N ->
            (hi <- (b <- read w ;; ret (from_be_bytes b)) ;;
             lo <- (b <- read w ;; ret (from_be_bytes b)) ;;
             ret (hi * 256 ^ Z.of_N w + lo)) d =
            (b <- read (w + w) ;; ret (from_be_bytes b)) d).
  { intros w Hw He.
    set (d1 := set_index d (index d + w)).
    assert (Hwf1 : wf d1) by (unfold d1, wf, len in *; cbn [index buffer set_index]; lia).
    assert (He1 : (index d1 + w <= len d1)%N)
      by (unfold d1, len in *; cbn [index buffer set_index]; lia).
    unfold bind at 1. rewrite (read_be_in_bounds d w Hwf ltac:(lia)). fold d1.
    unfold bind at 1. rewrite (read_be_in_bounds d1 w Hwf1 He1).
    rewrite (read_be_in_bounds d (w + w) Hwf He).
    unfold ret. rewrite window_split, from_be_bytes_app.
    fold d1. rewrite (window_length d1 w He1), N_nat_Z.
    unfold d1, set_index. cbn [index buffer]. rewrite N.add_assoc. reflexivity. }
  split; intros He.
  - exact (G 2%N ltac:(lia) He).
  - exact (G 4%N ltac:(lia) He).
Qed.

Lemma wide_reads_split_witness :
  let d := new [1; 2; 3; 4; 5; 6; 7; 8] in
  (hi <- read_u16 ;; lo <- read_u16 ;; ret (hi * 2 ^ 16 + lo)) d = read_u32 d /\
  (hi <- read_u32 ;; lo <- read_u32 ;; ret (hi * 2 ^ 32 + lo)) d = read_u64 d.
Proof.
  intros d.
  destruct (wide_reads_split d ltac:(vm_compute; split; discriminate)) as [H1 H2].
  split; [apply H1 | apply H2]; vm_compute; discriminate.
Defined.
